(** * Flamegrower: the Blender glTF export script

    A shallow embedding of [asset-sources/blender-export.py].  The script
    defines one callback, [export], that reads the output path from
    [sys.argv], prints a usage line when there is none, and otherwise calls
    the host operator [bpy.ops.export_scene.gltf] with a fixed keyword
    table; the module body then appends the callback to
    [bpy.app.handlers.load_post].

    The host (Blender) is external.  Its exporter is a parameter of the
    development: an arbitrary function of the keyword arguments and of the
    host's own state, that may change that state and may raise. *)

From stdpp Require Import base strings list gmap.

Open Scope string_scope.
Open Scope list_scope.

(** ** Python values and exceptions *)

(** The values the script hands to the host: booleans and strings (the
    keyword table), [None], and whatever else the host passes to a
    handler, kept opaque as [PyObj]. *)
Inductive pyval : Type :=
| PyNone
| PyBool (b : bool)
| PyStr (s : string)
| PyObj (id : nat).

(** The exceptions that matter here.  [ValueError] is what [list.index]
    raises, [IndexError] what subscripting raises; the others stand for
    what a host operator may raise.  [KeyboardInterrupt] and [SystemExit]
    derive from [BaseException] only. *)
Inductive exn : Type :=
| ValueError
| IndexError
| AttributeError
| RuntimeError (msg : string)
| OSError (msg : string)
| KeyboardInterrupt
| SystemExit.

(** [isinstance(e, Exception)]: the test of an [except Exception:] clause. *)
Definition is_Exception (e : exn) : bool :=
  match e with
  | KeyboardInterrupt | SystemExit => false
  | _ => true
  end.

(** A function object registered as a handler.  The decorator
    [bpy.app.handlers.persistent] marks the function and returns it. *)
Record pyfunc : Type := PyFunc {
  func_name : string;
  bpy_persistent : bool
}.

Definition persistent (f : pyfunc) : pyfunc :=
  {| func_name := func_name f; bpy_persistent := true |}.

Global Instance pyval_eq_dec : EqDecision pyval.
Proof. solve_decision. Defined.

Global Instance exn_eq_dec : EqDecision exn.
Proof. solve_decision. Defined.

Global Instance pyfunc_eq_dec : EqDecision pyfunc.
Proof. solve_decision. Defined.

(** ** Python list operations used by the script *)

(** [l.index(x)]: the position of the first element equal to [x];
    [ValueError] when there is none. *)
Fixpoint list_index (l : list string) (x : string) : exn + nat :=
  match l with
  | [] => inl ValueError
  | y :: l' =>
      if decide (y = x) then inr 0
      else match list_index l' x with
           | inr i => inr (S i)
           | inl e => inl e
           end
  end.

(** [l[i]] for an integer [i]: a negative index counts from the end, and an
    index outside the list raises [IndexError]. *)
Definition list_getitem (l : list string) (i : Z) : exn + string :=
  let n := Z.of_nat (length l) in
  let j := if decide (i < 0)%Z then (i + n)%Z else i in
  if decide (0 ≤ j < n)%Z then
    match l !! Z.to_nat j with
    | Some x => inr x
    | None => inl IndexError
    end
  else inl IndexError.

(** The expression [argv[argv.index("--") + 1]] on a given list. *)
Definition target_of (argv : list string) : exn + string :=
  match list_index argv "--" with
  | inr i => list_getitem argv (Z.of_nat i + 1)
  | inl e => inl e
  end.

(** ** The process and the host *)

Section Script.

(** The host's own state: the loaded scene, the file system. *)
Context {Host : Type}.

(** What the script can observe or change. *)
Record world : Type := World {
  sys_argv : list string;                       (* sys.argv *)
  stdout : list string;                         (* lines printed so far *)
  gltf_calls : list (gmap string pyval);        (* exporter calls, oldest first *)
  handlers : gmap string (list pyfunc);         (* bpy.app.handlers.<name> *)
  host : Host
}.

(** [bpy.ops.export_scene.gltf]: given the keyword arguments and the host
    state, a new host state and either a normal return or an exception. *)
Variable gltf : gmap string pyval → Host → Host * option exn.

(** Computations: a world transformer that returns a value or raises.
    State changes made before an exception are kept. *)
Definition py (A : Type) : Type := world → world * (exn + A).

Global Instance py_ret : MRet py := λ A x w, (w, inr x).

Global Instance py_bind : MBind py := λ A B k m w,
  match m w with
  | (w', inr x) => k x w'
  | (w', inl e) => (w', inl e)
  end.

Global Instance py_fmap : FMap py := λ A B f m w,
  match m w with
  | (w', inr x) => (w', inr (f x))
  | (w', inl e) => (w', inl e)
  end.

Definition lift {A : Type} (r : exn + A) : py A := λ w, (w, r).

(** [try: body / except Exception: handler]. *)
Definition try_except {A : Type} (body : py A) (handler : py A) : py A :=
  λ w,
    match body w with
    | (w', inr x) => (w', inr x)
    | (w', inl e) => if is_Exception e then handler w' else (w', inl e)
    end.

Definition get_argv : py (list string) := λ w, (w, inr (sys_argv w)).

(** [print(s)] *)
Definition print (s : string) : py unit := λ w,
  ({| sys_argv := sys_argv w;
      stdout := stdout w ++ [s];
      gltf_calls := gltf_calls w;
      handlers := handlers w;
      host := host w |}, inr ()).

(** The call of [bpy.ops.export_scene.gltf] with keyword arguments [kw];
    the call is logged whether or not the operator raises. *)
Definition call_gltf (kw : gmap string pyval) : py unit := λ w,
  let '(h, r) := gltf kw (host w) in
  ({| sys_argv := sys_argv w;
      stdout := stdout w;
      gltf_calls := gltf_calls w ++ [kw];
      handlers := handlers w;
      host := h |},
   match r with
   | None => inr ()
   | Some e => inl e
   end).

(** ** The script *)

Definition usage : string :=
  "Give the target file after a '--' on the command line".

(** The keyword arguments of the exporter call, in source order. *)
Definition export_kwargs_list (target_file : string) : list (string * pyval) :=
  [ ("filepath", PyStr target_file);
    ("check_existing", PyBool false);
    ("export_format", PyStr "GLB");
    ("use_visible", PyBool true);
    ("export_colors", PyBool true);
    ("export_skins", PyBool true);
    ("export_animations", PyBool true);
    ("export_def_bones", PyBool true);
    ("export_morph", PyBool true);
    ("optimize_animation_size", PyBool true);
    ("export_yup", PyBool true);
    ("export_image_format", PyStr "NONE");
    ("export_texcoords", PyBool false);
    ("export_normals", PyBool false);
    ("export_tangents", PyBool false);
    ("export_morph_normal", PyBool false);
    ("export_morph_tangent", PyBool false);
    ("export_materials", PyStr "NONE") ].

Definition export_kwargs (target_file : string) : gmap string pyval :=
  list_to_map (export_kwargs_list target_file).

(** The body of the [try]: [target_file = sys.argv[sys.argv.index("--") + 1]]. *)
Definition read_target_file : py string :=
  argv ← get_argv;
  i ← lift (list_index argv "--");
  lift (list_getitem argv (Z.of_nat i + 1)).

(** [def export( *_ )].  The [return] of the handler is the [None] branch. *)
Definition export (_args : list pyval) : py unit :=
  r ← try_except (Some <$> read_target_file)
                 (print usage;; mret None);
  match r with
  | None => mret ()
  | Some target_file => call_gltf (export_kwargs target_file)
  end.

(** The function object bound to [export] once the decorated [def] has
    run. *)
Definition export_fn : pyfunc :=
  persistent {| func_name := "export"; bpy_persistent := false |}.

(** [bpy.app.handlers.<name>.append(f)]: the list object is shared, so the
    append is an update of the store; a missing attribute raises. *)
Definition handlers_append (name : string) (f : pyfunc) : py unit := λ w,
  match handlers w !! name with
  | Some l =>
      ({| sys_argv := sys_argv w;
          stdout := stdout w;
          gltf_calls := gltf_calls w;
          handlers := <[name := l ++ [f]]> (handlers w);
          host := host w |}, inr ())
  | None => (w, inl AttributeError)
  end.

(** The module body after the imports and the [def]. *)
Definition module_init : py unit :=
  handlers_append "load_post" export_fn.

End Script.

Arguments world : clear implicits.
Arguments py : clear implicits.

(** ** Vocabulary of the specification *)

(** [j] is the position of the first [--] of [argv]. *)
Definition first_separator (argv : list string) (j : nat) : Prop :=
  argv !! j = Some "--" ∧ ∀ k, k < j → argv !! k ≠ Some "--".

(** The world after a computation, and its outcome. *)
Definition world_after {Host A} (m : py Host A) (w : world Host) : world Host :=
  (m w).1.

Definition outcome {Host A} (m : py Host A) (w : world Host) : exn + A :=
  (m w).2.

(** The fixed part of the keyword table: every option but the destination. *)
Definition options_of (kw : gmap string pyval) : gmap string pyval :=
  delete "filepath" kw.

(** A run of the callback that exports to [path]: it is the exporter call
    with the keyword table for [path], that call is the one entry added to
    the log, its [filepath] is [path] itself, and nothing is printed. *)
Definition exports_to {Host} (gltf : gmap string pyval → Host → Host * option exn)
    (args : list pyval) (w : world Host) (path : string) : Prop :=
  export gltf args w = call_gltf gltf (export_kwargs path) w ∧
  gltf_calls (world_after (export gltf args) w)
    = gltf_calls w ++ [export_kwargs path] ∧
  export_kwargs path !! "filepath" = Some (PyStr path) ∧
  stdout (world_after (export gltf args) w) = stdout w.

(** A run of the callback that only reports the usage: the usage line is
    the one line printed, the callback returns normally, and neither the
    exporter nor the host state is touched. *)
Definition reports_usage {Host} (gltf : gmap string pyval → Host → Host * option exn)
    (args : list pyval) (w : world Host) : Prop :=
  export gltf args w = print usage w ∧
  outcome (export gltf args) w = inr () ∧
  stdout (world_after (export gltf args) w) = stdout w ++ [usage] ∧
  gltf_calls (world_after (export gltf args) w) = gltf_calls w ∧
  host (world_after (export gltf args) w) = host w.

(** ** Sample hosts *)

(** A host whose state is the list of files written, newest first.  The
    exporter writes the file named by [filepath] and refuses a call
    without one. *)
Definition disk_gltf (kw : gmap string pyval) (files : list string)
  : list string * option exn :=
  match kw !! "filepath" with
  | Some (PyStr p) => (p :: files, None)
  | _ => (files, Some (RuntimeError "filepath expected"))
  end.

(** A host whose exporter always fails, leaving the disk as it was. *)
Definition full_disk_gltf (kw : gmap string pyval) (files : list string)
  : list string * option exn :=
  (files, Some (OSError "No space left on device")).

(** A freshly started process: nothing printed, no exporter call, and the
    host's handler lists empty. *)
Definition fresh_handlers : gmap string (list pyfunc) :=
  list_to_map [("load_pre", []); ("load_post", []); ("save_pre", []); ("save_post", [])].

Definition start (argv : list string) : world (list string) :=
  {| sys_argv := argv; stdout := []; gltf_calls := [];
     handlers := fresh_handlers; host := [] |}.

(** ** Repeated runs *)

(** The callback run once per load event, one argument tuple per event,
    in order.  The outcome of a run is left to the host: a run that raised
    does not keep the next event from running the callback again. *)
Fixpoint export_each {Host} (gltf : gmap string pyval → Host → Host * option exn)
    (events : list (list pyval)) (w : world Host) : world Host :=
  match events with
  | [] => w
  | args :: rest => export_each gltf rest (world_after (export gltf args) w)
  end.

(** The module body run [n] times in one session (the script passed or
    run again while the process lives). *)
Fixpoint module_init_times {Host} (n : nat) (w : world Host) : world Host :=
  match n with
  | 0 => w
  | S n' => module_init_times n' (world_after module_init w)
  end.

(** * Properties *)

(** Decide [first_separator] and non-membership on a literal list. *)
Ltac first_separator_here :=
  split; [reflexivity |];
  let k := fresh "k" in let Hk := fresh "Hk" in
  intros k Hk;
  repeat (destruct k as [|k]; [discriminate |]);
  simpl in Hk; lia.

Ltac not_in_literal :=
  let H := fresh "H" in
  intros H;
  repeat (apply elem_of_cons in H as [H | H]; [discriminate |]);
  by apply elem_of_nil in H.

(** ** The list operations *)

Section ListOps.

Implicit Types (l pre post : list string) (x y : string) (i j : nat).

Lemma list_index_inl l x e :
  list_index l x = inl e → e = ValueError ∧ x ∉ l.
Proof.
  revert e. induction l as [|y l IH]; simpl; intros e.
  - intros [= <-]. split; [done | apply not_elem_of_nil].
  - case_decide as Hy; [done |].
    destruct (list_index l x) as [e' | k]; [| done].
    intros [= <-]. destruct (IH e' eq_refl) as [-> Hx].
    split; [done |]. apply not_elem_of_cons. split; [congruence | done].
Qed.

Lemma list_index_inr l x i :
  list_index l x = inr i →
  l !! i = Some x ∧ ∀ k, k < i → l !! k ≠ Some x.
Proof.
  revert i. induction l as [|y l IH]; simpl; intros i; [done |].
  case_decide as Hy.
  - intros [= <-]. split; [by subst | intros k Hk; lia].
  - destruct (list_index l x) as [e | j]; [done |].
    intros [= <-]. destruct (IH j eq_refl) as [Hj Hlt].
    split; [done |].
    intros [|k] Hk; simpl; [congruence | apply Hlt; lia].
Qed.

Lemma list_index_first l x i :
  l !! i = Some x → (∀ k, k < i → l !! k ≠ Some x) →
  list_index l x = inr i.
Proof.
  revert i. induction l as [|y l IH]; intros i Hi Hlt; [done |].
  simpl. destruct i as [|i]; simpl in Hi.
  - injection Hi as ->. by rewrite decide_True.
  - rewrite decide_False.
    + rewrite (IH i); [done | done |].
      intros k Hk. apply (Hlt (S k)). lia.
    + intros ->. by apply (Hlt 0); [lia |].
Qed.

Lemma list_index_absent l x : x ∉ l → list_index l x = inl ValueError.
Proof.
  intros Hx. destruct (list_index l x) as [e | i] eqn:E.
  - by destruct (list_index_inl _ _ _ E) as [-> _].
  - destruct (list_index_inr _ _ _ E) as [Hi _].
    destruct Hx. by eapply list_elem_of_lookup_2.
Qed.

Lemma list_index_app pre x post :
  x ∉ pre → list_index (pre ++ x :: post) x = inr (length pre).
Proof.
  intros Hx. apply list_index_first.
  - by rewrite list_lookup_middle.
  - intros k Hk Hlook. rewrite lookup_app_l in Hlook; [| done].
    destruct Hx. by eapply list_elem_of_lookup_2.
Qed.

(** Every list that contains [x] has a first occurrence of it. *)
Lemma list_index_present l x i :
  l !! i = Some x → ∃ j, (j ≤ i)%nat ∧ list_index l x = inr j.
Proof.
  revert i. induction l as [|y l IH]; intros i Hi; [done |].
  simpl. case_decide as Hy; [exists 0; split; [lia | done] |].
  destruct i as [|i]; simpl in Hi; [congruence |].
  destruct (IH i Hi) as (j & Hj & ->).
  exists (S j). split; [lia | done].
Qed.

Lemma first_separator_app pre post :
  "--" ∉ pre → first_separator (pre ++ "--" :: post) (length pre).
Proof.
  intros Hpre. by apply list_index_inr, list_index_app.
Qed.

(** Subscripting by a natural number never wraps around. *)
Lemma list_getitem_nat l i :
  list_getitem l (Z.of_nat i) =
  match l !! i with Some x => inr x | None => inl IndexError end.
Proof.
  unfold list_getitem.
  destruct (decide (Z.of_nat i < 0)%Z) as [Hneg | _]; [lia |].
  simpl. case_decide as Hr.
  - by rewrite Nat2Z.id.
  - rewrite (lookup_ge_None_2 l i); [done | lia].
Qed.

Lemma list_getitem_succ l i :
  list_getitem l (Z.of_nat i + 1) =
  match l !! S i with Some x => inr x | None => inl IndexError end.
Proof.
  replace (Z.of_nat i + 1)%Z with (Z.of_nat (S i)) by lia.
  apply list_getitem_nat.
Qed.

(** The three cases of [argv[argv.index("--") + 1]]. *)
Lemma target_of_found l j path :
  first_separator l j → l !! S j = Some path → target_of l = inr path.
Proof.
  intros [Hj Hlt] Hp. unfold target_of.
  rewrite (list_index_first l "--" j Hj Hlt), list_getitem_succ.
  by rewrite Hp.
Qed.

Lemma target_of_no_separator l : "--" ∉ l → target_of l = inl ValueError.
Proof. intros Hl. unfold target_of. by rewrite list_index_absent. Qed.

Lemma target_of_nothing_after pre :
  "--" ∉ pre → target_of (pre ++ ["--"]) = inl IndexError.
Proof.
  intros Hpre. unfold target_of.
  rewrite list_index_app by done. rewrite list_getitem_succ.
  rewrite lookup_ge_None_2; [done |]. rewrite length_app. simpl. lia.
Qed.

(** The expression raises nothing but what [except Exception] catches. *)
Lemma target_of_raises l e : target_of l = inl e → is_Exception e = true.
Proof.
  unfold target_of. destruct (list_index l "--") as [e' | i] eqn:E.
  - intros [= <-]. by destruct (list_index_inl _ _ _ E) as [-> _].
  - rewrite list_getitem_succ. by destruct (l !! S i); intros [= <-].
Qed.

Lemma target_of_inr l path :
  target_of l = inr path →
  ∃ j, first_separator l j ∧ l !! S j = Some path.
Proof.
  unfold target_of. destruct (list_index l "--") as [e | j] eqn:E; [done |].
  rewrite list_getitem_succ. destruct (l !! S j) as [p |] eqn:Hp; [| done].
  intros [= <-]. exists j. split; [| done].
  by apply list_index_inr.
Qed.

End ListOps.

(** ** The callback *)

Section Callback.

Context {Host : Type} (gltf : gmap string pyval → Host → Host * option exn).

Implicit Types (w : world Host) (args : list pyval) (path : string).

(** The body of the [try] leaves the world alone. *)
Lemma read_target_file_eq w :
  read_target_file w = (w, target_of (sys_argv w)).
Proof.
  unfold read_target_file, target_of, get_argv, lift, mbind, py_bind.
  by destruct (list_index (sys_argv w) "--").
Qed.

Lemma export_resolved args w path :
  target_of (sys_argv w) = inr path →
  export gltf args w = call_gltf gltf (export_kwargs path) w.
Proof.
  intros Ht. unfold export, mbind, py_bind, try_except, fmap, py_fmap.
  by rewrite read_target_file_eq, Ht.
Qed.

Lemma export_unresolved args w e :
  target_of (sys_argv w) = inl e →
  export gltf args w = print usage w.
Proof.
  intros Ht. unfold export, mbind, py_bind, try_except, fmap, py_fmap.
  rewrite read_target_file_eq, Ht, (target_of_raises _ _ Ht).
  reflexivity.
Qed.

Lemma call_gltf_log kw w :
  gltf_calls (world_after (call_gltf gltf kw) w) = gltf_calls w ++ [kw].
Proof. unfold world_after, call_gltf. by destruct (gltf kw (host w)). Qed.

Lemma call_gltf_argv kw w :
  sys_argv (world_after (call_gltf gltf kw) w) = sys_argv w.
Proof. unfold world_after, call_gltf. by destruct (gltf kw (host w)). Qed.

Lemma call_gltf_stdout kw w :
  stdout (world_after (call_gltf gltf kw) w) = stdout w.
Proof. unfold world_after, call_gltf. by destruct (gltf kw (host w)). Qed.

(** A run of the callback logs at most the one call it makes. *)
Lemma export_log args w :
  gltf_calls (world_after (export gltf args) w) =
  match target_of (sys_argv w) with
  | inr path => gltf_calls w ++ [export_kwargs path]
  | inl _ => gltf_calls w
  end.
Proof.
  unfold world_after. destruct (target_of (sys_argv w)) as [e | path] eqn:Ht.
  - by rewrite (export_unresolved _ _ _ Ht).
  - rewrite (export_resolved _ _ _ Ht). apply call_gltf_log.
Qed.

Lemma export_argv args w :
  sys_argv (world_after (export gltf args) w) = sys_argv w.
Proof.
  unfold world_after. destruct (target_of (sys_argv w)) as [e | path] eqn:Ht.
  - by rewrite (export_unresolved _ _ _ Ht).
  - rewrite (export_resolved _ _ _ Ht). apply call_gltf_argv.
Qed.

Lemma exports_to_resolved args w path :
  target_of (sys_argv w) = inr path → exports_to gltf args w path.
Proof.
  intros Ht. unfold exports_to. repeat split.
  - by apply export_resolved.
  - by rewrite export_log, Ht.
  - unfold world_after. rewrite (export_resolved _ _ _ Ht).
    apply call_gltf_stdout.
Qed.

Lemma reports_usage_unresolved args w e :
  target_of (sys_argv w) = inl e → reports_usage gltf args w.
Proof.
  intros Ht. unfold reports_usage, outcome, world_after.
  by rewrite (export_unresolved _ _ _ Ht).
Qed.

(** The keyword table of a logged call is the one built by the script. *)
Lemma export_logged_call args w kw :
  gltf_calls (world_after (export gltf args) w) = gltf_calls w ++ [kw] →
  ∃ path, target_of (sys_argv w) = inr path ∧ kw = export_kwargs path.
Proof.
  rewrite export_log.
  destruct (target_of (sys_argv w)) as [e | path].
  - intros Hlog. apply (f_equal length) in Hlog.
    rewrite length_app in Hlog. simpl in Hlog. lia.
  - intros [= <-]%(inj (app (gltf_calls w))). by exists path.
Qed.

(** C1.  When the argument list has a [--] with an argument after it, the
    output path is the argument right after the (first) [--], unchanged,
    and the exporter is called once with that string as [filepath]. *)
Theorem export_target_follows_separator args w i :
  sys_argv w !! i = Some "--" → is_Some (sys_argv w !! S i) →
  ∃ j path,
    first_separator (sys_argv w) j ∧ (j ≤ i)%nat ∧
    (first_separator (sys_argv w) i → j = i) ∧
    sys_argv w !! S j = Some path ∧
    target_of (sys_argv w) = inr path ∧
    exports_to gltf args w path.
Proof.
  intros Hi [x Hx].
  destruct (list_index_present _ _ _ Hi) as (j & Hji & Hj).
  pose proof (list_index_inr _ _ _ Hj) as Hfirst.
  assert (is_Some (sys_argv w !! S j)) as [path Hp].
  { apply lookup_lt_is_Some. apply lookup_lt_Some in Hx. lia. }
  pose proof (target_of_found _ _ _ Hfirst Hp) as Ht.
  exists j, path. split_and!; try done.
  - intros [_ Hlt]. destruct (decide (j = i)) as [-> | Hne]; [done |].
    destruct (Hlt j); [lia | apply Hfirst].
  - by apply exports_to_resolved.
Qed.

(** C2, amended.  When the argument list has no [--], or its only [--] is
    the last argument, the callback prints the usage line and returns
    normally; the exporter is not called and the host is untouched. *)
Theorem export_usage_without_target args w :
  "--" ∉ sys_argv w ∨ (∃ pre, sys_argv w = pre ++ ["--"] ∧ "--" ∉ pre) →
  reports_usage gltf args w.
Proof.
  intros [Hno | (pre & Hargv & Hpre)].
  - eapply reports_usage_unresolved. by apply target_of_no_separator.
  - eapply reports_usage_unresolved. rewrite Hargv.
    by apply target_of_nothing_after.
Qed.

(** C3.  The keyword table of an exporter call made by the callback is
    the fixed one: GLB format, no existing-file check, visible objects
    only, colors, skins, animations and morph targets on, deform bones
    only, animation size optimization on, Y up, and images, texture
    coordinates, normals, tangents, morph normals and tangents, and
    materials off.  Besides [filepath] there is no other keyword. *)
Theorem export_call_has_fixed_options args w kw :
  gltf_calls (world_after (export gltf args) w) = gltf_calls w ++ [kw] →
  kw !! "export_format" = Some (PyStr "GLB") ∧
  kw !! "check_existing" = Some (PyBool false) ∧
  kw !! "use_visible" = Some (PyBool true) ∧
  kw !! "export_colors" = Some (PyBool true) ∧
  kw !! "export_skins" = Some (PyBool true) ∧
  kw !! "export_animations" = Some (PyBool true) ∧
  kw !! "export_def_bones" = Some (PyBool true) ∧
  kw !! "export_morph" = Some (PyBool true) ∧
  kw !! "optimize_animation_size" = Some (PyBool true) ∧
  kw !! "export_yup" = Some (PyBool true) ∧
  kw !! "export_image_format" = Some (PyStr "NONE") ∧
  kw !! "export_texcoords" = Some (PyBool false) ∧
  kw !! "export_normals" = Some (PyBool false) ∧
  kw !! "export_tangents" = Some (PyBool false) ∧
  kw !! "export_morph_normal" = Some (PyBool false) ∧
  kw !! "export_morph_tangent" = Some (PyBool false) ∧
  kw !! "export_materials" = Some (PyStr "NONE") ∧
  is_Some (kw !! "filepath") ∧
  size kw = 18.
Proof.
  intros (path & _ & ->)%export_logged_call.
  split_and!; try reflexivity. by eexists.
Qed.

(** C4.  Whatever the argument list, evaluating the path expression
    changes nothing and either yields a path, and the callback goes on
    to the exporter call, or raises [ValueError] or [IndexError], which
    the handler catches: the callback prints the usage line and returns
    normally, so no exception leaves it. *)
Theorem export_resolution_never_escapes args w :
  read_target_file w = (w, target_of (sys_argv w)) ∧
  match target_of (sys_argv w) with
  | inr path => exports_to gltf args w path
  | inl e =>
      (e = ValueError ∨ e = IndexError) ∧
      is_Exception e = true ∧
      reports_usage gltf args w
  end.
Proof.
  split; [apply read_target_file_eq |].
  destruct (target_of (sys_argv w)) as [e | path] eqn:Ht.
  - split_and!; [| by eapply target_of_raises
                 | by eapply reports_usage_unresolved].
    unfold target_of in Ht.
    destruct (list_index (sys_argv w) "--") as [e' | i] eqn:E.
    + injection Ht as <-. left. by destruct (list_index_inl _ _ _ E).
    + rewrite list_getitem_succ in Ht.
      destruct (sys_argv w !! S i); [done |]. injection Ht as <-. by right.
  - by apply exports_to_resolved.
Qed.

(** C5.  When the path is resolved and the exporter raises, the callback
    raises that same exception, whatever its class; nothing is printed
    and the host is left as the exporter left it. *)
Theorem export_propagates_exporter_error args w j path h e :
  first_separator (sys_argv w) j → sys_argv w !! S j = Some path →
  gltf (export_kwargs path) (host w) = (h, Some e) →
  outcome (export gltf args) w = inl e ∧
  stdout (world_after (export gltf args) w) = stdout w ∧
  host (world_after (export gltf args) w) = h.
Proof.
  intros Hj Hp Hg. pose proof (target_of_found _ _ _ Hj Hp) as Ht.
  unfold outcome, world_after. rewrite (export_resolved _ _ _ Ht).
  unfold call_gltf. by rewrite Hg.
Qed.

(** C7.  Two runs of the callback on the same valid argument list make
    two exporter calls with the same keyword table, destination
    included; the first run leaves the argument list as it was. *)
Theorem export_twice_same_call args1 args2 w j path :
  first_separator (sys_argv w) j → sys_argv w !! S j = Some path →
  let w1 := world_after (export gltf args1) w in
  let w2 := world_after (export gltf args2) w1 in
  sys_argv w1 = sys_argv w ∧
  gltf_calls w1 = gltf_calls w ++ [export_kwargs path] ∧
  gltf_calls w2 = gltf_calls w1 ++ [export_kwargs path].
Proof.
  intros Hj Hp w1 w2. pose proof (target_of_found _ _ _ Hj Hp) as Ht.
  assert (sys_argv w1 = sys_argv w) as Hargv by apply export_argv.
  split; [done |]. split.
  - unfold w1. by rewrite export_log, Ht.
  - unfold w2. by rewrite export_log, Hargv, Ht.
Qed.

(** C8.  The callback ignores the arguments the host passes to it: on the
    same world, any two argument tuples give the same final world and
    the same outcome. *)
Theorem export_ignores_host_arguments args1 args2 w :
  export gltf args1 w = export gltf args2 w.
Proof. reflexivity. Qed.

(** C10.  With several [--] the argument after the first one is taken,
    and it is taken as it is: whatever string follows the first [--],
    be it another [--], a flag or the empty string, and whatever comes
    later, that string is the [filepath] of the exporter call. *)
Theorem export_takes_first_separator_verbatim args w pre path post :
  sys_argv w = pre ++ "--" :: path :: post → "--" ∉ pre →
  target_of (sys_argv w) = inr path ∧ exports_to gltf args w path.
Proof.
  intros Hargv Hpre.
  assert (target_of (sys_argv w) = inr path) as Ht.
  { rewrite Hargv. apply (target_of_found _ (length pre)).
    - by apply first_separator_app.
    - rewrite lookup_app_r by lia.
      by replace (S (length pre) - length pre) with 1 by lia. }
  split; [done | by apply exports_to_resolved].
Qed.

End Callback.

(** ** Two runs, two hosts *)

Section TwoRuns.

Context {Host1 Host2 : Type}.
Context (gltf1 : gmap string pyval → Host1 → Host1 * option exn).
Context (gltf2 : gmap string pyval → Host2 → Host2 * option exn).

Lemma options_of_export_kwargs path1 path2 :
  options_of (export_kwargs path1) = options_of (export_kwargs path2).
Proof.
  unfold options_of, export_kwargs, export_kwargs_list.
  rewrite !list_to_map_cons. simpl fst. simpl snd.
  by rewrite !delete_insert_eq.
Qed.

(** C6.  Any two exporter calls made by the callback, on whatever
    argument lists, callback arguments, worlds and hosts, carry the same
    options once [filepath] is set aside. *)
Theorem export_options_constant args1 args2
    (w1 : world Host1) (w2 : world Host2) kw1 kw2 :
  gltf_calls (world_after (export gltf1 args1) w1) = gltf_calls w1 ++ [kw1] →
  gltf_calls (world_after (export gltf2 args2) w2) = gltf_calls w2 ++ [kw2] →
  options_of kw1 = options_of kw2.
Proof.
  intros (path1 & _ & ->)%export_logged_call.
  intros (path2 & _ & ->)%export_logged_call.
  apply options_of_export_kwargs.
Qed.

End TwoRuns.

(** ** Registration *)

Section Registration.

Context {Host : Type}.

(** C9.  Running the module body appends [export] once, at the end of
    [load_post]; every other handler list, and the rest of the world,
    is as before. *)
Theorem module_init_registers_export_once (w : world Host) l :
  handlers w !! "load_post" = Some l →
  let w' := world_after module_init w in
  outcome module_init w = inr () ∧
  handlers w' !! "load_post" = Some (l ++ [export_fn]) ∧
  (∀ name, name ≠ "load_post" → handlers w' !! name = handlers w !! name) ∧
  sys_argv w' = sys_argv w ∧ stdout w' = stdout w ∧
  gltf_calls w' = gltf_calls w ∧ host w' = host w.
Proof.
  intros Hl. unfold world_after, outcome, module_init, handlers_append.
  rewrite Hl. simpl. split_and!; try done.
  - apply lookup_insert_eq.
  - intros name Hne. by apply lookup_insert_ne.
Qed.

End Registration.

(** ** The scenarios of the specification, run on the sample hosts *)

Example scenario_model_glb :
  export disk_gltf [] (start ["blender"; "-b"; "rig.blend"; "--"; "model.glb"])
  = ({| sys_argv := ["blender"; "-b"; "rig.blend"; "--"; "model.glb"];
        stdout := [];
        gltf_calls := [export_kwargs "model.glb"];
        handlers := fresh_handlers;
        host := ["model.glb"] |}, inr ()).
Proof. reflexivity. Qed.

Example scenario_no_separator :
  export disk_gltf [] (start ["blender"; "-b"; "rig.blend"])
  = ({| sys_argv := ["blender"; "-b"; "rig.blend"];
        stdout := [usage];
        gltf_calls := [];
        handlers := fresh_handlers;
        host := [] |}, inr ()).
Proof. reflexivity. Qed.

Example scenario_nothing_after_separator :
  export disk_gltf [] (start ["blender"; "-b"; "rig.blend"; "--"])
  = ({| sys_argv := ["blender"; "-b"; "rig.blend"; "--"];
        stdout := [usage];
        gltf_calls := [];
        handlers := fresh_handlers;
        host := [] |}, inr ()).
Proof. reflexivity. Qed.

(** C2 as stated fails: this argument list ends in [--], yet an earlier
    [--] is followed by [x.glb]; the callback prints nothing and exports
    to [x.glb]. *)
Lemma trailing_separator_still_exports :
  let w := start ["blender"; "--"; "x.glb"; "--"] in
  last (sys_argv w) = Some "--" ∧
  ¬ reports_usage disk_gltf [] w ∧
  stdout (world_after (export disk_gltf []) w) = [] ∧
  gltf_calls (world_after (export disk_gltf []) w) = [export_kwargs "x.glb"] ∧
  host (world_after (export disk_gltf []) w) = ["x.glb"].
Proof.
  intros w. split_and!; try reflexivity.
  intros (_ & _ & Hout & _). discriminate Hout.
Qed.

Lemma export_target_follows_separator_witness :
  let w := start ["blender"; "-b"; "rig.blend"; "--"; "model.glb"] in
  sys_argv w !! 3 = Some "--" ∧ is_Some (sys_argv w !! 4) ∧
  ∃ j path,
    first_separator (sys_argv w) j ∧ (j ≤ 3)%nat ∧
    (first_separator (sys_argv w) 3 → j = 3) ∧
    sys_argv w !! S j = Some path ∧
    target_of (sys_argv w) = inr path ∧
    exports_to disk_gltf [] w path.
Proof.
  intros w.
  assert (sys_argv w !! 3 = Some "--") as H1 by reflexivity.
  assert (is_Some (sys_argv w !! 4)) as H2 by (by eexists).
  split; [exact H1 |]. split; [exact H2 |].
  exact (export_target_follows_separator disk_gltf [] w 3 H1 H2).
Defined.

Lemma export_usage_without_target_witness :
  let w := start ["blender"; "-b"; "rig.blend"; "--"] in
  ("--" ∉ sys_argv w ∨ (∃ pre, sys_argv w = pre ++ ["--"] ∧ "--" ∉ pre)) ∧
  reports_usage disk_gltf [] w.
Proof.
  intros w.
  assert ("--" ∉ sys_argv w ∨ (∃ pre, sys_argv w = pre ++ ["--"] ∧ "--" ∉ pre))
    as H.
  { right. exists ["blender"; "-b"; "rig.blend"].
    split; [reflexivity | not_in_literal]. }
  split; [exact H |].
  exact (export_usage_without_target disk_gltf [] w H).
Defined.

Lemma export_call_has_fixed_options_witness :
  let w := start ["blender"; "--"; "model.glb"] in
  let kw := export_kwargs "model.glb" in
  gltf_calls (world_after (export disk_gltf []) w) = gltf_calls w ++ [kw] ∧
  kw !! "export_format" = Some (PyStr "GLB") ∧
  kw !! "check_existing" = Some (PyBool false) ∧
  kw !! "export_materials" = Some (PyStr "NONE") ∧
  size kw = 18.
Proof.
  intros w kw.
  assert (gltf_calls (world_after (export disk_gltf []) w) = gltf_calls w ++ [kw])
    as H by reflexivity.
  pose proof (export_call_has_fixed_options disk_gltf [] w kw H) as T.
  split; [exact H |].
  split; [apply T |]. split; [apply T |]. split; apply T.
Defined.

Lemma export_propagates_exporter_error_witness :
  let w := start ["blender"; "--"; "out.glb"] in
  first_separator (sys_argv w) 1 ∧ sys_argv w !! 2 = Some "out.glb" ∧
  full_disk_gltf (export_kwargs "out.glb") (host w)
    = ([], Some (OSError "No space left on device")) ∧
  outcome (export full_disk_gltf []) w = inl (OSError "No space left on device") ∧
  stdout (world_after (export full_disk_gltf []) w) = stdout w ∧
  host (world_after (export full_disk_gltf []) w) = [].
Proof.
  intros w.
  assert (first_separator (sys_argv w) 1) as H1 by first_separator_here.
  assert (sys_argv w !! 2 = Some "out.glb") as H2 by reflexivity.
  assert (full_disk_gltf (export_kwargs "out.glb") (host w)
          = ([], Some (OSError "No space left on device"))) as H3 by reflexivity.
  split; [exact H1 |]. split; [exact H2 |]. split; [exact H3 |].
  exact (export_propagates_exporter_error full_disk_gltf [] w 1 "out.glb" []
           (OSError "No space left on device") H1 H2 H3).
Defined.

Lemma export_options_constant_witness :
  let w1 := start ["blender"; "--"; "a.glb"] in
  let w2 := start ["blender"; "-b"; "--"; "/tmp/b.glb"; "extra"] in
  gltf_calls (world_after (export disk_gltf [PyStr "rig.blend"]) w1)
    = gltf_calls w1 ++ [export_kwargs "a.glb"] ∧
  gltf_calls (world_after (export full_disk_gltf []) w2)
    = gltf_calls w2 ++ [export_kwargs "/tmp/b.glb"] ∧
  options_of (export_kwargs "a.glb") = options_of (export_kwargs "/tmp/b.glb").
Proof.
  intros w1 w2.
  assert (gltf_calls (world_after (export disk_gltf [PyStr "rig.blend"]) w1)
          = gltf_calls w1 ++ [export_kwargs "a.glb"]) as H1 by reflexivity.
  assert (gltf_calls (world_after (export full_disk_gltf []) w2)
          = gltf_calls w2 ++ [export_kwargs "/tmp/b.glb"]) as H2 by reflexivity.
  split; [exact H1 |]. split; [exact H2 |].
  exact (export_options_constant disk_gltf full_disk_gltf
           [PyStr "rig.blend"] [] w1 w2 _ _ H1 H2).
Defined.

Lemma export_twice_same_call_witness :
  let w := start ["blender"; "--"; "out.glb"] in
  first_separator (sys_argv w) 1 ∧ sys_argv w !! 2 = Some "out.glb" ∧
  (let w1 := world_after (export disk_gltf [PyStr "rig.blend"]) w in
   let w2 := world_after (export disk_gltf [PyObj 0; PyNone]) w1 in
   sys_argv w1 = sys_argv w ∧
   gltf_calls w1 = gltf_calls w ++ [export_kwargs "out.glb"] ∧
   gltf_calls w2 = gltf_calls w1 ++ [export_kwargs "out.glb"]).
Proof.
  intros w.
  assert (first_separator (sys_argv w) 1) as H1 by first_separator_here.
  assert (sys_argv w !! 2 = Some "out.glb") as H2 by reflexivity.
  split; [exact H1 |]. split; [exact H2 |].
  exact (export_twice_same_call disk_gltf [PyStr "rig.blend"] [PyObj 0; PyNone]
           w 1 "out.glb" H1 H2).
Defined.

Lemma module_init_registers_export_once_witness :
  let w := start ["blender"; "--"; "out.glb"] in
  handlers w !! "load_post" = Some [] ∧
  (let w' := world_after module_init w in
   outcome module_init w = inr () ∧
   handlers w' !! "load_post" = Some [export_fn] ∧
   (∀ name, name ≠ "load_post" → handlers w' !! name = handlers w !! name) ∧
   sys_argv w' = sys_argv w ∧ stdout w' = stdout w ∧
   gltf_calls w' = gltf_calls w ∧ host w' = host w).
Proof.
  intros w.
  assert (handlers w !! "load_post" = Some []) as H by reflexivity.
  split; [exact H |].
  exact (module_init_registers_export_once w [] H).
Defined.

Lemma export_takes_first_separator_verbatim_witness :
  let w := start ["blender"; "--"; "--"; "-f"; "--"; "out.glb"] in
  sys_argv w = ["blender"] ++ "--" :: "--" :: ["-f"; "--"; "out.glb"] ∧
  ("--" ∉ ["blender"]) ∧
  target_of (sys_argv w) = inr "--" ∧ exports_to disk_gltf [] w "--".
Proof.
  intros w.
  assert (sys_argv w = ["blender"] ++ "--" :: "--" :: ["-f"; "--"; "out.glb"])
    as H1 by reflexivity.
  assert ("--" ∉ ["blender"]) as H2 by not_in_literal.
  split; [exact H1 |]. split; [exact H2 |].
  exact (export_takes_first_separator_verbatim disk_gltf [] w
           ["blender"] "--" ["-f"; "--"; "out.glb"] H1 H2).
Defined.

(** * Further properties of the script *)

(** ** The path expression, case by case *)

Section PathExpression.

Implicit Types (l pre : list string) (path : string).

(** A list whose first [--] is its last element. *)
Lemma first_separator_last l j :
  first_separator l j → l !! S j = None →
  l = take j l ++ ["--"] ∧ "--" ∉ take j l.
Proof.
  intros [Hj Hlt] Hnone. split.
  - rewrite <- (take_drop j l) at 1. f_equal.
    rewrite (drop_S l "--" j Hj).
    by rewrite drop_ge by (by apply lookup_ge_None).
  - intros [k Hk]%list_elem_of_lookup_1.
    apply lookup_take_Some in Hk as [Hk Hkj]. by apply (Hlt k).
Qed.

Lemma target_of_ValueError l :
  target_of l = inl ValueError ↔ "--" ∉ l.
Proof.
  split; [| apply target_of_no_separator].
  unfold target_of. destruct (list_index l "--") as [e | i] eqn:E.
  - intros _. by destruct (list_index_inl _ _ _ E).
  - rewrite list_getitem_succ. by destruct (l !! S i).
Qed.

Lemma target_of_IndexError l :
  target_of l = inl IndexError ↔ ∃ pre, l = pre ++ ["--"] ∧ "--" ∉ pre.
Proof.
  split.
  - unfold target_of. destruct (list_index l "--") as [e | i] eqn:E.
    + destruct (list_index_inl _ _ _ E) as [-> _]. discriminate.
    + rewrite list_getitem_succ.
      destruct (l !! S i) eqn:Hnext; [discriminate |]. intros _.
      exists (take i l). apply first_separator_last; [| done].
      by apply list_index_inr.
  - intros (pre & -> & Hpre). by apply target_of_nothing_after.
Qed.

Lemma target_of_inl_cases l e :
  target_of l = inl e → e = ValueError ∨ e = IndexError.
Proof.
  unfold target_of. destruct (list_index l "--") as [e' | i] eqn:E.
  - intros [= <-]. left. by destruct (list_index_inl _ _ _ E).
  - rewrite list_getitem_succ.
    destruct (l !! S i); [done |]. intros [= <-]. by right.
Qed.

Lemma target_of_inr_iff l path :
  target_of l = inr path ↔ ∃ j, first_separator l j ∧ l !! S j = Some path.
Proof.
  split; [apply target_of_inr |].
  intros (j & Hj & Hp). by eapply target_of_found.
Qed.

(** X3.  The path expression raises [ValueError] exactly when the list has
    no [--], and [IndexError] exactly when its first [--] is its last
    element; in every other case it yields the argument after the first
    [--]. *)
Theorem target_of_cases l :
  (target_of l = inl ValueError ↔ "--" ∉ l) ∧
  (target_of l = inl IndexError ↔ ∃ pre, l = pre ++ ["--"] ∧ "--" ∉ pre) ∧
  (∀ path, target_of l = inr path ↔
             ∃ j, first_separator l j ∧ l !! S j = Some path) ∧
  (∀ e, target_of l = inl e → e = ValueError ∨ e = IndexError).
Proof.
  split_and!.
  - apply target_of_ValueError.
  - apply target_of_IndexError.
  - apply target_of_inr_iff.
  - apply target_of_inl_cases.
Qed.

End PathExpression.

(** ** The keyword table determines the path *)

Lemma export_kwargs_filepath path :
  export_kwargs path !! "filepath" = Some (PyStr path).
Proof. reflexivity. Qed.

Lemma export_kwargs_inj path1 path2 :
  export_kwargs path1 = export_kwargs path2 → path1 = path2.
Proof.
  intros Heq. apply (f_equal (λ kw : gmap string pyval, kw !! "filepath")) in Heq.
  rewrite !export_kwargs_filepath in Heq. by injection Heq.
Qed.

Section Exactness.

Context {Host : Type} (gltf : gmap string pyval → Host → Host * option exn).

Implicit Types (w : world Host) (args : list pyval) (path : string).

Lemma reports_usage_inv args w :
  reports_usage gltf args w → ∃ e, target_of (sys_argv w) = inl e.
Proof.
  intros (_ & _ & _ & Hlog & _). rewrite export_log in Hlog.
  destruct (target_of (sys_argv w)) as [e | path]; [by exists e |].
  apply (f_equal length) in Hlog. rewrite length_app in Hlog.
  simpl in Hlog. lia.
Qed.

Lemma exports_to_inv args w path :
  exports_to gltf args w path → target_of (sys_argv w) = inr path.
Proof.
  intros (_ & Hlog & _). rewrite export_log in Hlog.
  destruct (target_of (sys_argv w)) as [e | path'].
  - apply (f_equal length) in Hlog. rewrite length_app in Hlog.
    simpl in Hlog. lia.
  - apply (inj (app (gltf_calls w))) in Hlog.
    assert (export_kwargs path' = export_kwargs path) as Hkw by congruence.
    by rewrite (export_kwargs_inj _ _ Hkw).
Qed.

(** X1.  A run of the callback reports the usage, and does nothing else,
    exactly when the argument list has no [--] or its first [--] is its
    last element. *)
Theorem reports_usage_iff args w :
  reports_usage gltf args w ↔
  "--" ∉ sys_argv w ∨ (∃ pre, sys_argv w = pre ++ ["--"] ∧ "--" ∉ pre).
Proof.
  split.
  - intros [e He]%reports_usage_inv.
    destruct (target_of_inl_cases _ _ He) as [-> | ->].
    + left. by apply target_of_ValueError.
    + right. by apply target_of_IndexError.
  - intros [Hno | Hlast].
    + eapply reports_usage_unresolved. by apply target_of_ValueError.
    + eapply reports_usage_unresolved. by apply target_of_IndexError.
Qed.

(** X2.  A run of the callback exports to [path] exactly when [path] is
    the argument right after the first [--] of the argument list: the
    exporter is never called with any other destination. *)
Theorem exports_to_iff args w path :
  exports_to gltf args w path ↔
  ∃ j, first_separator (sys_argv w) j ∧ sys_argv w !! S j = Some path.
Proof.
  rewrite <- target_of_inr_iff. split.
  - apply exports_to_inv.
  - apply exports_to_resolved.
Qed.

(** X4.  Over any sequence of load events the callback does the same thing
    every time, whatever the exporter does in between: with a resolvable
    path the log gains one identical call per event and nothing is
    printed; otherwise one usage line is printed per event and the
    exporter is never called.  The argument list is never changed. *)
Theorem export_each_uniform events w :
  sys_argv (export_each gltf events w) = sys_argv w ∧
  match target_of (sys_argv w) with
  | inr path =>
      gltf_calls (export_each gltf events w)
        = gltf_calls w ++ replicate (length events) (export_kwargs path) ∧
      stdout (export_each gltf events w) = stdout w
  | inl _ =>
      gltf_calls (export_each gltf events w) = gltf_calls w ∧
      stdout (export_each gltf events w)
        = stdout w ++ replicate (length events) usage
  end.
Proof.
  revert w. induction events as [|args events IH]; intros w.
  - simpl. split; [done |].
    destruct (target_of (sys_argv w)); by rewrite app_nil_r.
  - simpl. destruct (IH (world_after (export gltf args) w)) as [Hargv Hrest].
    rewrite export_argv in Hargv, Hrest. split; [done |].
    destruct (target_of (sys_argv w)) as [e | path] eqn:Ht.
    + destruct Hrest as [-> ->]. unfold world_after.
      rewrite (export_unresolved _ _ _ _ Ht). simpl.
      by rewrite <- (assoc_L (++)).
    + destruct Hrest as [-> ->].
      pose proof (exports_to_resolved gltf args w path Ht) as (_ & -> & _ & ->).
      by rewrite <- (assoc_L (++)).
Qed.

End Exactness.

Section SameCall.

Context {Host1 Host2 : Type}.
Context (gltf1 : gmap string pyval → Host1 → Host1 * option exn).
Context (gltf2 : gmap string pyval → Host2 → Host2 * option exn).

(** X5.  Two exporter calls made by the callback are the same call exactly
    when the two argument lists resolve to the same path: the path is the
    only thing that tells two calls apart. *)
Theorem export_calls_equal_iff args1 args2
    (w1 : world Host1) (w2 : world Host2) kw1 kw2 :
  gltf_calls (world_after (export gltf1 args1) w1) = gltf_calls w1 ++ [kw1] →
  gltf_calls (world_after (export gltf2 args2) w2) = gltf_calls w2 ++ [kw2] →
  kw1 = kw2 ↔ target_of (sys_argv w1) = target_of (sys_argv w2).
Proof.
  intros (path1 & -> & ->)%export_logged_call.
  intros (path2 & -> & ->)%export_logged_call.
  split.
  - by intros ->%export_kwargs_inj.
  - by intros [= ->].
Qed.

End SameCall.

(** ** Registering more than once *)

Section Reregistration.

Context {Host : Type}.

(** X6.  The module body does not check whether [export] is already
    registered: run [n] times, it leaves [n] more copies of [export] at the
    end of [load_post], after the handlers that were there, and touches no
    other handler list. *)
Theorem module_init_times_appends n (w : world Host) l :
  handlers w !! "load_post" = Some l →
  handlers (module_init_times n w) !! "load_post"
    = Some (l ++ replicate n export_fn) ∧
  ∀ name, name ≠ "load_post" →
    handlers (module_init_times n w) !! name = handlers w !! name.
Proof.
  revert w l. induction n as [|n IH]; intros w l Hl.
  - simpl. by rewrite app_nil_r.
  - simpl.
    assert (handlers (world_after module_init w)
            = <["load_post" := l ++ [export_fn]]> (handlers w)) as Hw.
    { unfold world_after, module_init, handlers_append. by rewrite Hl. }
    destruct (IH (world_after module_init w) (l ++ [export_fn])) as [Hpost Hother].
    { rewrite Hw. apply lookup_insert_eq. }
    split.
    + by rewrite Hpost, <- (assoc_L (++)).
    + intros name Hne. rewrite (Hother name Hne), Hw.
      by apply lookup_insert_ne.
Qed.

End Reregistration.

(** ** The further properties on the sample hosts *)

Example scenario_three_events :
  let w := export_each full_disk_gltf [[]; [PyStr "rig.blend"]; [PyNone]]
             (start ["blender"; "--"; "out.glb"]) in
  gltf_calls w = replicate 3 (export_kwargs "out.glb") ∧
  stdout w = [] ∧ host w = [].
Proof. by split_and!. Qed.

Lemma export_calls_equal_iff_witness :
  let w1 := start ["blender"; "--"; "a.glb"] in
  let w2 := start ["blender"; "-b"; "--"; "a.glb"; "extra"] in
  gltf_calls (world_after (export disk_gltf []) w1)
    = gltf_calls w1 ++ [export_kwargs "a.glb"] ∧
  gltf_calls (world_after (export full_disk_gltf [PyNone]) w2)
    = gltf_calls w2 ++ [export_kwargs "a.glb"] ∧
  (export_kwargs "a.glb" = export_kwargs "a.glb" ↔
   target_of (sys_argv w1) = target_of (sys_argv w2)).
Proof.
  intros w1 w2.
  assert (gltf_calls (world_after (export disk_gltf []) w1)
          = gltf_calls w1 ++ [export_kwargs "a.glb"]) as H1 by reflexivity.
  assert (gltf_calls (world_after (export full_disk_gltf [PyNone]) w2)
          = gltf_calls w2 ++ [export_kwargs "a.glb"]) as H2 by reflexivity.
  split; [exact H1 |]. split; [exact H2 |].
  exact (export_calls_equal_iff disk_gltf full_disk_gltf [] [PyNone]
           w1 w2 _ _ H1 H2).
Defined.

Lemma module_init_times_appends_witness :
  let w := start ["blender"; "--"; "out.glb"] in
  handlers w !! "load_post" = Some [] ∧
  handlers (module_init_times 2 w) !! "load_post"
    = Some ([] ++ replicate 2 export_fn) ∧
  (∀ name, name ≠ "load_post" →
     handlers (module_init_times 2 w) !! name = handlers w !! name).
Proof.
  intros w.
  assert (handlers w !! "load_post" = Some []) as H by reflexivity.
  split; [exact H |].
  exact (module_init_times_appends 2 w [] H).
Defined.
